(** * kremlib/kremstr.c: the FStar.String and FStar.HyperStack.IO shim

    A shallow embedding of the four functions of [kremstr.c] over a small
    model of the C library calls they forward to ([strlen], [strcat],
    [calloc], [printf]), followed by the properties of the shim stated in
    its specification. *)

From Stdlib Require Import ZArith Lia Strings.Byte Strings.String.
From stdpp Require Import base list.

Local Open Scope Z_scope.

(** ** The C abstract machine, as far as the shim touches it *)

(** Characters are bytes; [NUL] is the string terminator. *)
Definition NUL : byte := x00.

Definition is_nul (c : byte) : bool := Byte.eqb c NUL.

(** A [char *]: the null pointer, or an offset into an object. *)
Inductive ptr : Type :=
  | NULL
  | Ptr (b : nat) (ofs : nat).

(** The state the shim runs in: the objects alive in memory (object [b] is
    the [b]-th entry, a sequence of bytes), the answers the allocator will
    give to the requests still to come ([true]: memory is available), and
    the characters written to standard output so far. *)
Record world : Type := World {
  objs : list (list byte);
  alloc_oracle : list bool;
  stdout : list byte
}.

(** A call either returns a value in a new state, or has undefined
    behaviour. *)
Inductive outcome (A : Type) : Type :=
  | Ret (a : A) (w : world)
  | Undef.
Arguments Ret {A} a w.
Arguments Undef {A}.

Definition exec (A : Type) : Type := world -> outcome A.

Definition ret {A} (a : A) : exec A := fun w => Ret a w.

Definition bind {A B} (m : exec A) (k : A -> exec B) : exec B :=
  fun w => match m w with
           | Ret a w' => k a w'
           | Undef => Undef
           end.

Notation "'let*' x ':=' m 'in' k" := (bind m (fun x => k))
  (at level 10, x name, m at level 100, k at level 200).

(** The characters from the start of [bs] up to the first [NUL]; [None]
    when the object ends before a terminator is met. *)
Fixpoint scan_cstr (bs : list byte) : option (list byte) :=
  match bs with
  | [] => None
  | c :: bs' => if is_nul c then Some [] else cons c <$> scan_cstr bs'
  end.

(** Reading the string a pointer designates. *)
Definition load_cstr (w : world) (p : ptr) : option (list byte) :=
  match p with
  | NULL => None
  | Ptr b ofs =>
      match objs w !! b with
      | Some bs => scan_cstr (drop ofs bs)
      | None => None
      end
  end.

(** Writing [data] into object [b] from offset [ofs]; [None] when the write
    would leave the object. *)
Definition store_bytes (b ofs : nat) (data : list byte) (w : world)
  : option world :=
  match objs w !! b with
  | Some bs =>
      if decide (ofs + length data <= length bs)%nat
      then Some {| objs := <[b := take ofs bs ++ data
                                    ++ drop (ofs + length data) bs]> (objs w);
                   alloc_oracle := alloc_oracle w;
                   stdout := stdout w |}
      else None
  | None => None
  end.

(** Do [n1] bytes from offset [lo1] of object [b1] and [n2] bytes from
    offset [lo2] of object [b2] share a byte? *)
Definition overlaps (b1 lo1 n1 b2 lo2 n2 : nat) : bool :=
  (b1 =? b2)%nat && (lo1 <? lo2 + n2)%nat && (lo2 <? lo1 + n1)%nat.

Definition putchars (cs : list byte) (w : world) : world :=
  {| objs := objs w; alloc_oracle := alloc_oracle w;
     stdout := stdout w ++ cs |}.

(** The allocator has answered one request. *)
Definition next_request (w : world) : world :=
  {| objs := objs w; alloc_oracle := tl (alloc_oracle w);
     stdout := stdout w |}.

(** A new object is added to the memory. *)
Definition new_object (bs : list byte) (w : world) : world :=
  {| objs := objs w ++ [bs]; alloc_oracle := alloc_oracle w;
     stdout := stdout w |}.

#[local] Instance byte_eq_decision : EqDecision byte := Byte.byte_eq_dec.

(** ** Sample states *)

(** The object a string literal is stored in. *)
Definition literal (s : string) : list byte := list_byte_of_string s ++ [NUL].

Definition sample_objs : list (list byte) :=
  [literal "foo"; literal "bar"; literal ""; literal "hello"; literal "abc"].

(** A state whose allocator satisfies the next two requests, one whose
    allocator has memory for a single request, and one whose allocator has
    no memory left. *)
Definition sample_world : world :=
  {| objs := sample_objs; alloc_oracle := [true; true]; stdout := [] |}.

Definition tight_world : world :=
  {| objs := sample_objs; alloc_oracle := [true]; stdout := [] |}.

Definition exhausted_world : world :=
  {| objs := sample_objs; alloc_oracle := []; stdout := [] |}.

Definition str_foo : ptr := Ptr 0 0.
Definition str_bar : ptr := Ptr 1 0.
Definition str_empty : ptr := Ptr 2 0.
Definition str_hello : ptr := Ptr 3 0.
Definition str_abc : ptr := Ptr 4 0.

Section Platform.

(** The width of [size_t]. *)
Variable size_bits : Z.

Definition SIZE_MAX : Z := 2 ^ size_bits - 1.

(** No object is larger than [PTRDIFF_MAX] bytes. *)
Definition PTRDIFF_MAX : Z := SIZE_MAX / 2.

(** Arithmetic on [size_t] wraps around. *)
Definition to_size_t (z : Z) : Z := z mod 2 ^ size_bits.

(** *** The C library *)

(** [size_t strlen(const char *s)] *)
Definition strlen (s : ptr) : exec Z :=
  fun w => match load_cstr w s with
           | Some cs => Ret (to_size_t (Z.of_nat (length cs))) w
           | None => Undef
           end.

(** Is the next request, for [n] bytes, satisfied? *)
Definition allocator_grants (w : world) (n : Z) : bool :=
  hd false (alloc_oracle w) && (0 <=? n) && (n <=? PTRDIFF_MAX).

(** [void *calloc(size_t nmemb, size_t size)]: a fresh object of
    [nmemb * size] zero bytes, or the null pointer. *)
Definition calloc (nmemb size : Z) : exec ptr :=
  fun w =>
    let total := nmemb * size in
    if allocator_grants w total
    then Ret (Ptr (length (objs w)) 0)
             (new_object (replicate (Z.to_nat total) NUL) (next_request w))
    else Ret NULL (next_request w).

(** Are the successive requests [ns] all satisfied? *)
Fixpoint allocator_grants_all (w : world) (ns : list Z) : bool :=
  match ns with
  | [] => true
  | n :: ns' => allocator_grants w n && allocator_grants_all (next_request w) ns'
  end.

(** [char *strcat(char *dest, const char *src)]: the characters of [src]
    and a terminator are written over the terminator of [dest]. Undefined
    when either is not a string, when the two overlap, or when [dest] has
    no room. *)
Definition strcat (dest src : ptr) : exec ptr :=
  fun w =>
    match dest, load_cstr w dest, src, load_cstr w src with
    | Ptr db dofs, Some d, Ptr sb sofs, Some s =>
        let n := S (length s) in
        let at_ := (dofs + length d)%nat in
        if overlaps db at_ n sb sofs n then Undef
        else match store_bytes db at_ (s ++ [NUL]) w with
             | Some w' => Ret dest w'
             | None => Undef
             end
    | _, _, _, _ => Undef
    end.

(** [int printf(const char *format, ...)], for formats made of ordinary
    characters, [%s] and [%%]. The result is the number of characters
    written. *)
Fixpoint printf_from (fmt : list byte) (args : list ptr) (count : Z)
  : exec Z :=
  match fmt with
  | [] => ret count
  | c :: fmt' =>
      if Byte.eqb c "%"%byte then
        match fmt' with
        | [] => fun _ => Undef
        | d :: fmt'' =>
            if Byte.eqb d "s"%byte then
              match args with
              | [] => fun _ => Undef
              | a :: args' =>
                  fun w =>
                    match load_cstr w a with
                    | Some cs =>
                        printf_from fmt'' args'
                          (count + Z.of_nat (length cs)) (putchars cs w)
                    | None => Undef
                    end
              end
            else if Byte.eqb d "%"%byte then
              fun w => printf_from fmt'' args (count + 1) (putchars [d] w)
            else fun _ => Undef
        end
      else fun w => printf_from fmt' args (count + 1) (putchars [c] w)
  end.

Definition printf (fmt : string) (args : list ptr) : exec Z :=
  printf_from (list_byte_of_string fmt) args 0.

(** ** The shim *)

(** [Prims_string], declared in [kremlib.h], is handed to [strlen] and
    [strcat] as it is and obtained from a [char *] by a cast: a pointer to
    characters. *)
Definition Prims_string : Type := ptr.

(** Modelled from the spec: [Prims_nat], whose declaration is in
    [kremlib.h], is "a non-negative integer representing a count", with
    "no invariants beyond non-negativity, enforced by the underlying length
    computation": an integer wide enough for every count. *)
Definition Prims_nat : Type := Z.

(** Modelled from the spec: the conversion of a [size_t] to [Prims_nat] at
    a [return] keeps the value. *)
Definition Prims_nat_of_size_t (n : Z) : Prims_nat := n.

Definition FStar_String_strlen (s : Prims_string) : exec Prims_nat :=
  let* n := strlen s in
  ret (Prims_nat_of_size_t n).

Definition FStar_String_strcat (s0 s1 : Prims_string) : exec Prims_string :=
  let* l0 := strlen s0 in
  let* l1 := strlen s1 in
  let* dest := calloc (to_size_t (to_size_t (l0 + l1) + 1)) 1 in
  let* _ := strcat dest s0 in
  let* _ := strcat dest s1 in
  ret dest.

Definition Prims_strcat (s0 s1 : Prims_string) : exec Prims_string :=
  FStar_String_strcat s0 s1.

Definition FStar_HyperStack_IO_print_string (s : Prims_string) : exec unit :=
  let* _ := printf "%s" [s] in
  ret tt.

(** ** Valid terminated strings *)

(** [s] designates, in [w], the terminated string of characters [cs]: it
    points into a live object (of a size the platform allows) whose bytes
    from there on are [cs], none of them [NUL], and then a [NUL]. *)
Definition terminated_string (w : world) (s : Prims_string) (cs : list byte)
  : Prop :=
  match s with
  | NULL => False
  | Ptr b ofs =>
      exists bs rest,
        objs w !! b = Some bs /\
        Z.of_nat (length bs) <= PTRDIFF_MAX /\
        drop ofs bs = cs ++ NUL :: rest /\
        NUL ∉ cs
  end.

(** The same, as a test that can be run. *)
Definition check_string (w : world) (s : Prims_string) (cs : list byte)
  : bool :=
  match s with
  | NULL => false
  | Ptr b ofs =>
      match objs w !! b with
      | Some bs =>
          (Z.of_nat (length bs) <=? PTRDIFF_MAX)
          && bool_decide (scan_cstr (drop ofs bs) = Some cs)
      | None => false
      end
  end.

(** [s] designates, in [w], a terminated sequence of characters [cs],
    whatever the size of the object it is in. *)
Definition string_at (w : world) (s : Prims_string) (cs : list byte) : Prop :=
  match s with
  | NULL => False
  | Ptr b ofs =>
      exists bs rest,
        objs w !! b = Some bs /\
        drop ofs bs = cs ++ NUL :: rest /\
        NUL ∉ cs
  end.

(** ** The C library calls behave as the standard says *)

Lemma scan_cstr_app (cs rest : list byte) :
  NUL ∉ cs -> scan_cstr (cs ++ NUL :: rest) = Some cs.
Proof.
  induction cs as [|c cs IH]; intros Hnul; simpl.
  - reflexivity.
  - apply not_elem_of_cons in Hnul as [Hc Hcs].
    unfold is_nul. destruct (Byte.eqb c NUL) eqn:E.
    + apply Byte.byte_dec_bl in E. congruence.
    + rewrite (IH Hcs). reflexivity.
Qed.

Lemma scan_cstr_inv (bs cs : list byte) :
  scan_cstr bs = Some cs -> (NUL ∉ cs) /\ exists rest, bs = cs ++ NUL :: rest.
Proof.
  revert cs. induction bs as [|c bs IH]; intros cs; simpl; [discriminate|].
  unfold is_nul. destruct (Byte.eqb c NUL) eqn:E.
  - intros [= <-]. apply Byte.byte_dec_bl in E. subst c. split.
    + apply not_elem_of_nil.
    + exists bs. reflexivity.
  - destruct (scan_cstr bs) as [cs'|]; simpl; [|discriminate].
    intros [= <-]. destruct (IH cs' eq_refl) as [Hn [rest ->]]. split.
    + apply not_elem_of_cons. split; [|exact Hn].
      intros <-. apply Byte.eqb_false in E. congruence.
    + exists rest. reflexivity.
Qed.

Lemma terminated_string_load w s cs :
  terminated_string w s cs -> load_cstr w s = Some cs.
Proof.
  destruct s as [|b ofs]; simpl; [tauto|].
  intros (bs & rest & Hb & _ & Hd & Hn).
  rewrite Hb, Hd. apply scan_cstr_app, Hn.
Qed.

Lemma check_string_sound w s cs :
  check_string w s cs = true -> terminated_string w s cs.
Proof.
  destruct s as [|b ofs]; simpl; [discriminate|].
  destruct (objs w !! b) as [bs|]; [|discriminate].
  intros [Hsz Hscan]%andb_prop.
  apply bool_decide_eq_true in Hscan. apply Z.leb_le in Hsz.
  destruct (scan_cstr_inv _ _ Hscan) as [Hn [rest Hrest]].
  exists bs, rest. auto.
Qed.

(** Twice the largest object size is still a [size_t]. *)
Lemma PTRDIFF_MAX_twice (n : Z) :
  0 < n -> n <= PTRDIFF_MAX -> 2 * PTRDIFF_MAX <= SIZE_MAX /\ 0 < SIZE_MAX.
Proof.
  unfold PTRDIFF_MAX. intros Hpos Hle.
  assert (0 < SIZE_MAX / 2) as Hhalf by lia.
  assert (0 < SIZE_MAX) as Hmax.
  { destruct (Z.le_gt_cases SIZE_MAX 0) as [Hneg|]; [|assumption].
    assert (SIZE_MAX / 2 <= 0 / 2) by (apply Z.div_le_mono; lia).
    rewrite Z.div_0_l in * by lia. lia. }
  split; [|exact Hmax]. apply Z.mul_div_le. lia.
Qed.

Lemma to_size_t_small (z : Z) : 0 <= z <= SIZE_MAX -> to_size_t z = z.
Proof. unfold to_size_t, SIZE_MAX. intros H. apply Z.mod_small. lia. Qed.

Lemma to_size_t_nonneg (z : Z) : 0 <= z -> 0 <= to_size_t z.
Proof.
  unfold to_size_t. intros Hz.
  destruct (Z.eq_dec (2 ^ size_bits) 0) as [E|E].
  - rewrite E, Z.mod_0_r. exact Hz.
  - assert (0 <= 2 ^ size_bits) by (apply Z.pow_nonneg; lia).
    apply Z.mod_pos_bound. lia.
Qed.

(** A terminated string and its terminator fit in the object they are in. *)
Lemma terminated_string_length w s cs :
  terminated_string w s cs -> 0 < Z.of_nat (length cs) + 1 <= PTRDIFF_MAX.
Proof.
  destruct s as [|b ofs]; simpl; [tauto|].
  intros (bs & rest & _ & Hsz & Hd & _).
  assert (length (drop ofs bs) <= length bs)%nat as Hlen
    by (rewrite length_drop; lia).
  rewrite Hd, length_app in Hlen. simpl in Hlen. lia.
Qed.

Lemma strlen_terminated w s cs :
  terminated_string w s cs -> strlen s w = Ret (Z.of_nat (length cs)) w.
Proof.
  intros Hs. unfold strlen.
  rewrite (terminated_string_load _ _ _ Hs).
  pose proof (terminated_string_length _ _ _ Hs) as Hlen.
  destruct (PTRDIFF_MAX_twice (Z.of_nat (length cs) + 1)) as [H2 Hmax];
    [lia| lia |].
  rewrite to_size_t_small by lia. reflexivity.
Qed.

(** [strlen] writes nothing. *)
Lemma strlen_state w s n w' : strlen s w = Ret n w' -> w' = w.
Proof.
  unfold strlen. destruct (load_cstr w s); [|discriminate].
  intros [= _ <-]. reflexivity.
Qed.

Lemma calloc_granted w n :
  allocator_grants w n = true ->
  calloc n 1 w = Ret (Ptr (length (objs w)) 0)
                     (new_object (replicate (Z.to_nat n) NUL) (next_request w)).
Proof. unfold calloc. rewrite Z.mul_1_r. intros ->. reflexivity. Qed.

Lemma calloc_refused w n :
  allocator_grants w n = false -> calloc n 1 w = Ret NULL (next_request w).
Proof. unfold calloc. rewrite Z.mul_1_r. intros ->. reflexivity. Qed.

(** [strcat] onto a string with room behind it, from a string of another
    object. *)
Lemma strcat_appends w db dofs sb sofs pre d tail sbs cs rest :
  objs w !! db = Some (pre ++ d ++ NUL :: tail) ->
  length pre = dofs ->
  NUL ∉ d ->
  objs w !! sb = Some sbs ->
  drop sofs sbs = cs ++ NUL :: rest ->
  NUL ∉ cs ->
  sb <> db ->
  (length cs <= length tail)%nat ->
  strcat (Ptr db dofs) (Ptr sb sofs) w =
    Ret (Ptr db dofs)
        {| objs := <[db := pre ++ (d ++ cs) ++ NUL :: drop (length cs) tail]>
                     (objs w);
           alloc_oracle := alloc_oracle w;
           stdout := stdout w |}.
Proof.
  intros Hd Hpre Hnd Hs Hdrop Hns Hne Hroom.
  unfold strcat, load_cstr. rewrite Hd, Hs, Hdrop. subst dofs.
  rewrite drop_app_length, !scan_cstr_app by assumption.
  unfold overlaps.
  destruct (Nat.eqb_spec db sb) as [->|_]; [congruence|]. simpl.
  unfold store_bytes. rewrite Hd.
  rewrite decide_True
    by (repeat (rewrite length_app; simpl); lia).
  do 3 f_equal. rewrite <- length_app, (app_assoc pre d).
  rewrite take_app_length, drop_app_add.
  rewrite length_app. simpl.
  replace (length cs + 1)%nat with (S (length cs)) by lia. simpl.
  rewrite <- !app_assoc. reflexivity.
Qed.

(** The same when the destination is the last object of the memory and the
    source is a string of an earlier one. *)
Lemma strcat_last O orc out d tail sb sofs sbs cs rest :
  O !! sb = Some sbs ->
  drop sofs sbs = cs ++ NUL :: rest ->
  NUL ∉ cs ->
  NUL ∉ d ->
  (length cs <= length tail)%nat ->
  strcat (Ptr (length O) 0) (Ptr sb sofs)
         {| objs := O ++ [d ++ NUL :: tail];
            alloc_oracle := orc; stdout := out |} =
    Ret (Ptr (length O) 0)
        {| objs := O ++ [(d ++ cs) ++ NUL :: drop (length cs) tail];
           alloc_oracle := orc; stdout := out |}.
Proof.
  intros Hs Hdrop Hns Hnd Hroom.
  pose proof (lookup_lt_Some _ _ _ Hs) as Hlt.
  erewrite (strcat_appends _ (length O) 0 sb sofs [] d tail sbs cs rest);
    simpl; try eassumption; try reflexivity; try lia.
  - rewrite insert_app_r_alt, Nat.sub_diag by lia. reflexivity.
  - apply list_lookup_middle. reflexivity.
  - apply lookup_app_l_Some. exact Hs.
Qed.

Lemma allocator_grants_bound w n :
  allocator_grants w n = true -> 0 <= n <= PTRDIFF_MAX.
Proof.
  unfold allocator_grants. intros [[_ H0]%andb_prop H1]%andb_prop.
  apply Z.leb_le in H0, H1. lia.
Qed.

(** What [FStar_String_strcat] does when the allocator has memory: the
    string it returns is a new object, made of the characters of both
    strings and one terminator. *)
Lemma FStar_String_strcat_granted w s0 s1 cs0 cs1 :
  terminated_string w s0 cs0 ->
  terminated_string w s1 cs1 ->
  allocator_grants w (Z.of_nat (length cs0) + Z.of_nat (length cs1) + 1)
    = true ->
  FStar_String_strcat s0 s1 w =
    Ret (Ptr (length (objs w)) 0)
        (new_object ((cs0 ++ cs1) ++ [NUL]) (next_request w)).
Proof.
  intros H0 H1 Hg. unfold FStar_String_strcat, bind.
  rewrite (strlen_terminated _ _ _ H0), (strlen_terminated _ _ _ H1).
  pose proof (terminated_string_length _ _ _ H0) as L0.
  pose proof (terminated_string_length _ _ _ H1) as L1.
  destruct (PTRDIFF_MAX_twice (Z.of_nat (length cs0) + 1)) as [H2 _];
    [lia | lia |].
  rewrite (to_size_t_small (_ + Z.of_nat _)) by lia.
  rewrite to_size_t_small by lia.
  rewrite calloc_granted by assumption.
  replace (Z.to_nat (Z.of_nat (length cs0) + Z.of_nat (length cs1) + 1))
    with (S (length cs0 + length cs1)) by lia.
  unfold new_object, next_request. cbn [objs alloc_oracle stdout].
  cbv beta iota.
  destruct s0 as [|b0 o0]; [contradiction|].
  destruct s1 as [|b1 o1]; [contradiction|].
  destruct H0 as (bs0 & r0 & Hb0 & _ & Hd0 & Hn0).
  destruct H1 as (bs1 & r1 & Hb1 & _ & Hd1 & Hn1).
  change (replicate (S (length cs0 + length cs1)) NUL)
    with ([] ++ NUL :: replicate (length cs0 + length cs1) NUL).
  rewrite (strcat_last (objs w) _ _ [] _ b0 o0 bs0 cs0 r0);
    try assumption; [| apply not_elem_of_nil | rewrite length_replicate; lia].
  cbv beta iota. rewrite drop_replicate_add, app_nil_l.
  rewrite (strcat_last (objs w) _ _ cs0 _ b1 o1 bs1 cs1 r1);
    try assumption; [| rewrite length_replicate; lia].
  rewrite drop_replicate, Nat.sub_diag. reflexivity.
Qed.

(** When the allocator has none, the null pointer goes to [strcat]. *)
Lemma FStar_String_strcat_refused w s0 s1 l0 l1 :
  strlen s0 w = Ret l0 w ->
  strlen s1 w = Ret l1 w ->
  allocator_grants w (to_size_t (to_size_t (l0 + l1) + 1)) = false ->
  FStar_String_strcat s0 s1 w = Undef.
Proof.
  intros H0 H1 Hg. unfold FStar_String_strcat, bind.
  rewrite H0, H1, calloc_refused by assumption. reflexivity.
Qed.

(** Strings stay what they are when an object is added to the memory. *)
Lemma terminated_string_frame w s cs bs :
  terminated_string w s cs ->
  terminated_string (new_object bs (next_request w)) s cs.
Proof.
  destruct s as [|b ofs]; simpl; [tauto|].
  intros (bs0 & rest & Hb & Hsz & Hd & Hn).
  exists bs0, rest. split; [|auto]. apply lookup_app_l_Some, Hb.
Qed.

(** The characters [cs] and a terminator, as a new object, are a string. *)
Lemma terminated_string_new w cs :
  Z.of_nat (length cs) + 1 <= PTRDIFF_MAX ->
  NUL ∉ cs ->
  terminated_string (new_object (cs ++ [NUL]) (next_request w))
                    (Ptr (length (objs w)) 0) cs.
Proof.
  intros Hsz Hn. exists (cs ++ [NUL]), []. simpl. repeat split.
  - apply list_lookup_middle. reflexivity.
  - rewrite length_app. simpl. lia.
  - exact Hn.
Qed.

Lemma terminated_string_no_nul w s cs : terminated_string w s cs -> NUL ∉ cs.
Proof.
  destruct s as [|b ofs]; simpl; [tauto|]. intros (? & ? & _ & _ & _ & Hn).
  exact Hn.
Qed.

Lemma terminated_string_inj w s cs cs' :
  terminated_string w s cs -> terminated_string w s cs' -> cs = cs'.
Proof.
  intros H H'. apply terminated_string_load in H, H'. congruence.
Qed.

Lemma allocator_grants_oracle w w' n :
  alloc_oracle w = alloc_oracle w' ->
  allocator_grants w n = allocator_grants w' n.
Proof. unfold allocator_grants. intros ->. reflexivity. Qed.

Lemma FStar_String_strlen_terminated w s cs :
  terminated_string w s cs ->
  FStar_String_strlen s w = Ret (Z.of_nat (length cs)) w.
Proof.
  intros Hs. unfold FStar_String_strlen, bind.
  rewrite (strlen_terminated _ _ _ Hs). reflexivity.
Qed.

(** The [%s] directive writes the characters of its argument. *)
Lemma printf_from_string fmt a args count w cs :
  load_cstr w a = Some cs ->
  printf_from ("%"%byte :: "s"%byte :: fmt) (a :: args) count w =
    printf_from fmt args (count + Z.of_nat (length cs)) (putchars cs w).
Proof. intros H. simpl. rewrite H. reflexivity. Qed.

Lemma print_string_terminated w s cs :
  terminated_string w s cs ->
  FStar_HyperStack_IO_print_string s w = Ret tt (putchars cs w).
Proof.
  intros Hs. unfold FStar_HyperStack_IO_print_string, bind, printf.
  change (list_byte_of_string "%s") with ["%"%byte; "s"%byte].
  rewrite (printf_from_string _ _ _ _ _ cs)
    by (apply terminated_string_load, Hs).
  reflexivity.
Qed.

(** With memory available, [FStar_String_strcat] returns a string of the
    characters of both arguments, and every string stays what it was. *)
Lemma FStar_String_strcat_string w s0 s1 cs0 cs1 :
  terminated_string w s0 cs0 ->
  terminated_string w s1 cs1 ->
  allocator_grants w (Z.of_nat (length cs0) + Z.of_nat (length cs1) + 1)
    = true ->
  exists p w',
    FStar_String_strcat s0 s1 w = Ret p w' /\
    terminated_string w' p (cs0 ++ cs1) /\
    alloc_oracle w' = tl (alloc_oracle w) /\
    forall s cs, terminated_string w s cs -> terminated_string w' s cs.
Proof.
  intros H0 H1 Hg. eexists _, _. split; [|split; [|split]].
  - apply FStar_String_strcat_granted; eassumption.
  - apply terminated_string_new.
    + apply allocator_grants_bound in Hg. rewrite length_app. lia.
    + apply not_elem_of_app. split; eapply terminated_string_no_nul; eassumption.
  - reflexivity.
  - intros s cs. apply terminated_string_frame.
Qed.

(** ** The properties of the specification *)

(** C1, as amended: for every pair of valid terminated strings [s0] and
    [s1] such that the allocator satisfies the request for
    [length s0 + length s1 + 1] bytes, [FStar_String_strcat s0 s1] returns a
    pointer to the start of a new object; this buffer holds the characters
    of [s0], then those of [s1], then the terminator, and nothing else, so
    its size is exactly [length s0 + length s1 + 1], the lengths being
    those [FStar_String_strlen] returns, and nothing is truncated; the
    pointer is a valid terminated string with these characters. *)
Theorem FStar_String_strcat_concatenates w s0 s1 cs0 cs1 :
  terminated_string w s0 cs0 ->
  terminated_string w s1 cs1 ->
  allocator_grants w (Z.of_nat (length cs0) + Z.of_nat (length cs1) + 1)
    = true ->
  exists l0 l1 b w' buf,
    FStar_String_strlen s0 w = Ret l0 w /\
    FStar_String_strlen s1 w = Ret l1 w /\
    FStar_String_strcat s0 s1 w = Ret (Ptr b 0) w' /\
    objs w !! b = None /\
    objs w' !! b = Some buf /\
    buf = cs0 ++ cs1 ++ [NUL] /\
    Z.of_nat (length buf) = l0 + l1 + 1 /\
    terminated_string w' (Ptr b 0) (cs0 ++ cs1).
Proof.
  intros H0 H1 Hg.
  exists (Z.of_nat (length cs0)), (Z.of_nat (length cs1)), (length (objs w)),
    (new_object ((cs0 ++ cs1) ++ [NUL]) (next_request w)),
    (cs0 ++ cs1 ++ [NUL]).
  split; [apply FStar_String_strlen_terminated, H0|].
  split; [apply FStar_String_strlen_terminated, H1|].
  split; [apply FStar_String_strcat_granted; assumption|].
  split; [apply lookup_ge_None; lia|].
  split; [rewrite app_assoc; apply list_lookup_middle; reflexivity|].
  split; [reflexivity|].
  split; [rewrite !length_app; simpl; lia|].
  apply terminated_string_new.
  - apply allocator_grants_bound in Hg. rewrite length_app. lia.
  - apply not_elem_of_app. split; eapply terminated_string_no_nul; eassumption.
Qed.

(** C2: for every valid terminated string [s], [FStar_String_strlen s]
    returns the number of characters before the terminator and leaves the
    state (memory, allocator, standard output) as it was; for the empty
    string the result is 0. *)
Theorem FStar_String_strlen_counts w s cs :
  terminated_string w s cs ->
  FStar_String_strlen s w = Ret (Z.of_nat (length cs)) w /\
  (cs = [] -> FStar_String_strlen s w = Ret 0 w).
Proof.
  intros Hs. split.
  - apply FStar_String_strlen_terminated, Hs.
  - intros ->. apply (FStar_String_strlen_terminated _ _ _ Hs).
Qed.

(** C3, as amended: for all valid terminated strings [a] and [b] such that
    the allocator satisfies the request of the concatenation, the length of
    [FStar_String_strcat a b] is the length of [a] plus the length of
    [b]. *)
Theorem FStar_String_strlen_strcat w a b ca cb :
  terminated_string w a ca ->
  terminated_string w b cb ->
  allocator_grants w (Z.of_nat (length ca) + Z.of_nat (length cb) + 1)
    = true ->
  exists la lb n w',
    FStar_String_strlen a w = Ret la w /\
    FStar_String_strlen b w = Ret lb w /\
    (let* ab := FStar_String_strcat a b in FStar_String_strlen ab) w
      = Ret n w' /\
    n = la + lb.
Proof.
  intros Ha Hb Hg.
  destruct (FStar_String_strcat_string _ _ _ _ _ Ha Hb Hg)
    as (p & w' & Hcat & Hp & _ & _).
  exists (Z.of_nat (length ca)), (Z.of_nat (length cb)),
    (Z.of_nat (length (ca ++ cb))), w'.
  split; [apply FStar_String_strlen_terminated, Ha|].
  split; [apply FStar_String_strlen_terminated, Hb|].
  split.
  - unfold bind at 1. rewrite Hcat.
    apply FStar_String_strlen_terminated, Hp.
  - rewrite length_app. lia.
Qed.

(** C4, as amended: for every valid terminated string [a] and every empty
    string [e], when the allocator satisfies the request of the
    concatenation, [FStar_String_strcat a e] and [FStar_String_strcat e a]
    both return a string with the characters of [a], and [a] still has
    them. *)
Theorem FStar_String_strcat_empty w a e ca :
  terminated_string w a ca ->
  terminated_string w e [] ->
  allocator_grants w (Z.of_nat (length ca) + 1) = true ->
  (exists p w', FStar_String_strcat a e w = Ret p w' /\
                terminated_string w' p ca /\ terminated_string w' a ca) /\
  (exists p w', FStar_String_strcat e a w = Ret p w' /\
                terminated_string w' p ca /\ terminated_string w' a ca).
Proof.
  intros Ha He Hg. split.
  - destruct (FStar_String_strcat_string w a e ca [] Ha He)
      as (p & w' & Hcat & Hp & _ & Hframe).
    { simpl. rewrite Z.add_0_r. exact Hg. }
    rewrite app_nil_r in Hp. exists p, w'. auto.
  - destruct (FStar_String_strcat_string w e a [] ca He Ha)
      as (p & w' & Hcat & Hp & _ & Hframe).
    { simpl. exact Hg. }
    exists p, w'. auto.
Qed.

(** C5, as amended: for all valid terminated strings [a], [b] and [c], when
    the allocator satisfies the two requests of each side,
    [FStar_String_strcat (FStar_String_strcat a b) c] and
    [FStar_String_strcat a (FStar_String_strcat b c)] both return a string,
    and the two have the same characters: those of [a], then [b], then
    [c]. *)
Theorem FStar_String_strcat_assoc w a b c ca cb cc :
  terminated_string w a ca ->
  terminated_string w b cb ->
  terminated_string w c cc ->
  let la := Z.of_nat (length ca) in
  let lb := Z.of_nat (length cb) in
  let lc := Z.of_nat (length cc) in
  allocator_grants_all w [la + lb + 1; la + lb + lc + 1] = true ->
  allocator_grants_all w [lb + lc + 1; la + lb + lc + 1] = true ->
  exists p wl q wr cs,
    (let* ab := FStar_String_strcat a b in FStar_String_strcat ab c) w
      = Ret p wl /\
    (let* bc := FStar_String_strcat b c in FStar_String_strcat a bc) w
      = Ret q wr /\
    terminated_string wl p cs /\
    terminated_string wr q cs /\
    cs = ca ++ cb ++ cc.
Proof.
  intros Ha Hb Hc la lb lc Gl Gr. subst la lb lc. simpl in Gl, Gr.
  rewrite andb_true_r in Gl, Gr.
  apply andb_prop in Gl as [Gab Gabc], Gr as [Gbc Gabc'].
  destruct (FStar_String_strcat_string _ _ _ _ _ Ha Hb Gab)
    as (ab & w1 & Hab & Sab & O1 & F1).
  destruct (FStar_String_strcat_string _ _ _ _ _ Hb Hc Gbc)
    as (bc & w2 & Hbc & Sbc & O2 & F2).
  destruct (FStar_String_strcat_string w1 ab c _ _ Sab (F1 _ _ Hc))
    as (p & wl & Hp & Sp & _ & _).
  { rewrite length_app, Nat2Z.inj_add.
    rewrite (allocator_grants_oracle w1 (next_request w)) by exact O1.
    exact Gabc. }
  destruct (FStar_String_strcat_string w2 a bc _ _ (F2 _ _ Ha) Sbc)
    as (q & wr & Hq & Sq & _ & _).
  { rewrite length_app, Nat2Z.inj_add, Z.add_assoc.
    rewrite (allocator_grants_oracle w2 (next_request w)) by exact O2.
    exact Gabc'. }
  exists p, wl, q, wr, (ca ++ cb ++ cc).
  unfold bind. rewrite Hab, Hbc.
  rewrite <- app_assoc in Sp. auto.
Qed.

(** C6: [Prims_strcat] gives, on every pair of arguments (valid strings or
    not) and in every state, the outcome of [FStar_String_strcat] on the
    same arguments in the same order; the two are the same function. *)
Theorem Prims_strcat_forwards :
  (forall s0 s1 w, Prims_strcat s0 s1 w = FStar_String_strcat s0 s1 w) /\
  Prims_strcat = FStar_String_strcat.
Proof. split; reflexivity. Qed.

(** C7: for every valid terminated string [s],
    [FStar_HyperStack_IO_print_string s] returns no value ([tt]) in a state
    whose standard output is the former one followed by exactly the
    characters of [s], in order; memory and allocator are as they were. *)
Theorem print_string_writes w s cs :
  terminated_string w s cs ->
  exists w',
    FStar_HyperStack_IO_print_string s w = Ret tt w' /\
    stdout w' = stdout w ++ cs /\
    objs w' = objs w /\
    alloc_oracle w' = alloc_oracle w.
Proof.
  intros Hs. exists (putchars cs w).
  split; [apply print_string_terminated, Hs|]. repeat split.
Qed.

(** C8: [FStar_String_strcat] has no error result: whatever its arguments,
    it never returns the null pointer. Nor does it detect that memory ran
    out: whatever its arguments, its behaviour is undefined when the
    allocator has no memory, and whenever its call to [calloc] returns the
    null pointer. *)
Theorem FStar_String_strcat_no_error w s0 s1 :
  (forall p w', FStar_String_strcat s0 s1 w = Ret p w' -> p <> NULL) /\
  (hd false (alloc_oracle w) = false ->
   FStar_String_strcat s0 s1 w = Undef) /\
  (forall l0 l1 w',
     strlen s0 w = Ret l0 w ->
     strlen s1 w = Ret l1 w ->
     calloc (to_size_t (to_size_t (l0 + l1) + 1)) 1 w = Ret NULL w' ->
     FStar_String_strcat s0 s1 w = Undef).
Proof.
  split; [|split].
  - intros p w'. unfold FStar_String_strcat, bind.
    destruct (strlen s0 w) as [l0 w0|]; [|discriminate].
    destruct (strlen s1 w0) as [l1 w1|]; [|discriminate].
    destruct (calloc _ 1 w1) as [dest w2|]; [|discriminate].
    destruct (strcat dest s0 w2) as [d0 w3|] eqn:E0; [|discriminate].
    destruct (strcat dest s1 w3) as [d1 w4|]; [|discriminate].
    intros [= <- <-]. intros ->. discriminate E0.
  - intros Hoom. unfold FStar_String_strcat, bind.
    destruct (strlen s0 w) as [l0 w0|] eqn:E0; [|reflexivity].
    apply strlen_state in E0 as ->.
    destruct (strlen s1 w) as [l1 w1|] eqn:E1; [|reflexivity].
    apply strlen_state in E1 as ->.
    rewrite calloc_refused; [reflexivity|].
    unfold allocator_grants. rewrite Hoom. reflexivity.
  - intros l0 l1 w' H0 H1 Hc. unfold FStar_String_strcat, bind.
    rewrite H0, H1, Hc. reflexivity.
Qed.

(** C9: for every valid terminated string [s], the count returned by
    [FStar_String_strlen s] is not negative, whatever the length of
    [s]. *)
Theorem FStar_String_strlen_nonneg w s cs :
  terminated_string w s cs ->
  exists n, FStar_String_strlen s w = Ret n w /\ 0 <= n.
Proof.
  intros Hs. unfold FStar_String_strlen, bind, strlen.
  rewrite (terminated_string_load _ _ _ Hs).
  eexists. split; [reflexivity|].
  unfold Prims_nat_of_size_t. apply to_size_t_nonneg. lia.
Qed.

(** C10: for every pair of valid terminated strings [s0] and [s1], the
    pointer returned by [FStar_String_strcat s0 s1] is a valid terminated
    string in the state it is returned in; so [FStar_String_strlen] and
    [FStar_HyperStack_IO_print_string] return on it, and so does
    [FStar_String_strcat], with it on either side of any valid string,
    when the allocator satisfies the request. *)
Theorem FStar_String_strcat_terminated w s0 s1 cs0 cs1 p w' :
  terminated_string w s0 cs0 ->
  terminated_string w s1 cs1 ->
  FStar_String_strcat s0 s1 w = Ret p w' ->
  terminated_string w' p (cs0 ++ cs1) /\
  FStar_String_strlen p w' = Ret (Z.of_nat (length (cs0 ++ cs1))) w' /\
  FStar_HyperStack_IO_print_string p w' = Ret tt (putchars (cs0 ++ cs1) w') /\
  (forall t ct,
     terminated_string w' t ct ->
     allocator_grants w'
       (Z.of_nat (length (cs0 ++ cs1)) + Z.of_nat (length ct) + 1) = true ->
     (exists q w'', FStar_String_strcat p t w' = Ret q w'' /\
                    terminated_string w'' q ((cs0 ++ cs1) ++ ct)) /\
     (exists q w'', FStar_String_strcat t p w' = Ret q w'' /\
                    terminated_string w'' q (ct ++ cs0 ++ cs1))).
Proof.
  intros H0 H1 Hret.
  assert (terminated_string w' p (cs0 ++ cs1)) as Hp.
  { destruct (allocator_grants w
                (Z.of_nat (length cs0) + Z.of_nat (length cs1) + 1)) eqn:Hg.
    - destruct (FStar_String_strcat_string _ _ _ _ _ H0 H1 Hg)
        as (p' & w1 & Hcat & Hp & _).
      rewrite Hcat in Hret. injection Hret as <- <-. exact Hp.
    - pose proof (terminated_string_length _ _ _ H0) as L0.
      pose proof (terminated_string_length _ _ _ H1) as L1.
      destruct (PTRDIFF_MAX_twice (Z.of_nat (length cs0) + 1)) as [H2 _];
        [lia | lia |].
      rewrite (FStar_String_strcat_refused w s0 s1 _ _
                 (strlen_terminated _ _ _ H0) (strlen_terminated _ _ _ H1))
        in Hret; [discriminate|].
      rewrite (to_size_t_small (_ + Z.of_nat _)) by lia.
      rewrite to_size_t_small by lia. exact Hg. }
  split; [exact Hp|].
  split; [apply FStar_String_strlen_terminated, Hp|].
  split; [apply print_string_terminated, Hp|].
  intros t ct Ht Hg. split.
  - destruct (FStar_String_strcat_string _ _ _ _ _ Hp Ht Hg)
      as (q & w'' & Hcat & Hq & _).
    exists q, w''. auto.
  - destruct (FStar_String_strcat_string w' t p ct (cs0 ++ cs1) Ht Hp)
      as (q & w'' & Hcat & Hq & _).
    { rewrite <- Hg. f_equal. lia. }
    exists q, w''. auto.
Qed.

(** ** Beyond the specification: when the shim returns, and what it leaves
    alone *)

Lemma load_cstr_string_at w s cs :
  load_cstr w s = Some cs <-> string_at w s cs.
Proof.
  destruct s as [|b ofs]; simpl; [split; [discriminate | tauto]|]. split.
  - destruct (objs w !! b) as [bs|]; [|discriminate]. intros Hscan.
    destruct (scan_cstr_inv _ _ Hscan) as [Hn [rest Hrest]].
    exists bs, rest. auto.
  - intros (bs & rest & -> & -> & Hn). apply scan_cstr_app, Hn.
Qed.

Lemma terminated_string_string_at w s cs :
  terminated_string w s cs -> string_at w s cs.
Proof.
  destruct s as [|b ofs]; simpl; [tauto|].
  intros (bs & rest & Hb & _ & Hd & Hn). exists bs, rest. auto.
Qed.

Lemma string_at_frame w s cs bs :
  string_at w s cs -> string_at (new_object bs (next_request w)) s cs.
Proof.
  destruct s as [|b ofs]; simpl; [tauto|].
  intros (bs0 & rest & Hb & Hd & Hn).
  exists bs0, rest. split; [|auto]. apply lookup_app_l_Some, Hb.
Qed.

(** The size handed to [calloc], computed on [size_t], is the true size
    reduced modulo [2 ^ size_bits]. *)
Lemma size_request_wraps (la lb : Z) :
  to_size_t (to_size_t (to_size_t la + to_size_t lb) + 1)
    = to_size_t (la + lb + 1).
Proof.
  unfold to_size_t. destruct (Z.eq_dec (2 ^ size_bits) 0) as [E|E].
  - rewrite E, !Z.mod_0_r. reflexivity.
  - rewrite <- Z.add_mod by exact E.
    rewrite Z.add_mod_idemp_l by exact E. reflexivity.
Qed.

Lemma PTRDIFF_MAX_le_SIZE_MAX : 0 <= PTRDIFF_MAX -> PTRDIFF_MAX <= SIZE_MAX.
Proof.
  unfold PTRDIFF_MAX. intros H.
  pose proof (Z.mul_div_le SIZE_MAX 2 ltac:(lia)). lia.
Qed.

(** [strcat] into a buffer too small for the result is undefined. *)
Lemma strcat_no_room O orc out d tail sb sofs sbs cs rest :
  O !! sb = Some sbs ->
  drop sofs sbs = cs ++ NUL :: rest ->
  NUL ∉ cs ->
  NUL ∉ d ->
  (length tail < length cs)%nat ->
  strcat (Ptr (length O) 0) (Ptr sb sofs)
         {| objs := O ++ [d ++ NUL :: tail];
            alloc_oracle := orc; stdout := out |} = Undef.
Proof.
  intros Hs Hdrop Hns Hnd Hroom.
  pose proof (lookup_lt_Some _ _ _ Hs) as Hlt.
  unfold strcat, load_cstr. cbn [objs].
  rewrite (list_lookup_middle O [] (d ++ NUL :: tail) (length O) eq_refl).
  rewrite (lookup_app_l_Some _ _ _ _ Hs), Hdrop, drop_0.
  rewrite !scan_cstr_app by assumption.
  unfold overlaps. destruct (Nat.eqb_spec (length O) sb) as [E|_]; [lia|].
  simpl. unfold store_bytes. cbn [objs].
  rewrite (list_lookup_middle O [] (d ++ NUL :: tail) (length O) eq_refl).
  rewrite decide_False; [reflexivity|].
  repeat (rewrite length_app; simpl). lia.
Qed.

(** [strcat] into a buffer of no bytes is undefined. *)
Lemma strcat_empty_buffer O orc out src :
  strcat (Ptr (length O) 0) src
         {| objs := O ++ [[]]; alloc_oracle := orc; stdout := out |} = Undef.
Proof.
  unfold strcat, load_cstr. cbn [objs].
  rewrite (list_lookup_middle O [] [] (length O) eq_refl). reflexivity.
Qed.

(** The outcome of [FStar_String_strcat] on two terminated sequences of
    characters, of any size: the concatenation in a new object when the
    allocator grants the true size, undefined behaviour otherwise. *)
Lemma FStar_String_strcat_outcome w s0 s1 cs0 cs1 :
  string_at w s0 cs0 ->
  string_at w s1 cs1 ->
  FStar_String_strcat s0 s1 w =
    if allocator_grants w (Z.of_nat (length cs0) + Z.of_nat (length cs1) + 1)
    then Ret (Ptr (length (objs w)) 0)
             (new_object ((cs0 ++ cs1) ++ [NUL]) (next_request w))
    else Undef.
Proof.
  intros H0 H1.
  pose proof (proj2 (load_cstr_string_at _ _ _) H0) as L0.
  pose proof (proj2 (load_cstr_string_at _ _ _) H1) as L1.
  unfold FStar_String_strcat, bind, strlen. rewrite L0, L1.
  rewrite size_request_wraps.
  destruct s0 as [|b0 o0]; [contradiction|].
  destruct s1 as [|b1 o1]; [contradiction|].
  destruct H0 as (bs0 & r0 & Hb0 & Hd0 & Hn0).
  destruct H1 as (bs1 & r1 & Hb1 & Hd1 & Hn1).
  set (L := Z.of_nat (length cs0) + Z.of_nat (length cs1) + 1).
  destruct (allocator_grants w L) eqn:G.
  - pose proof (allocator_grants_bound _ _ G) as B.
    rewrite to_size_t_small
      by (pose proof PTRDIFF_MAX_le_SIZE_MAX; lia).
    rewrite calloc_granted by assumption. subst L.
    replace (Z.to_nat (Z.of_nat (length cs0) + Z.of_nat (length cs1) + 1))
      with (S (length cs0 + length cs1)) by lia.
    unfold new_object, next_request. cbn [objs alloc_oracle stdout].
    cbv beta iota.
    change (replicate (S (length cs0 + length cs1)) NUL)
      with ([] ++ NUL :: replicate (length cs0 + length cs1) NUL).
    rewrite (strcat_last (objs w) _ _ [] _ b0 o0 bs0 cs0 r0);
      try assumption;
      [| apply not_elem_of_nil | rewrite length_replicate; lia].
    cbv beta iota. rewrite drop_replicate_add, app_nil_l.
    rewrite (strcat_last (objs w) _ _ cs0 _ b1 o1 bs1 cs1 r1);
      try assumption; [| rewrite length_replicate; lia].
    rewrite drop_replicate, Nat.sub_diag. reflexivity.
  - destruct (allocator_grants w (to_size_t L)) eqn:Gn.
    + pose proof (allocator_grants_bound _ _ Gn) as B.
      assert (to_size_t L < L) as Hlt.
      { assert (to_size_t L <> L) as Hne by congruence.
        unfold to_size_t in *.
        destruct (Z.eq_dec (2 ^ size_bits) 0) as [E|E].
        - rewrite E, Z.mod_0_r in Hne. congruence.
        - assert (0 <= 2 ^ size_bits) by (apply Z.pow_nonneg; lia).
          pose proof (Z.mod_le L (2 ^ size_bits)). lia. }
      rewrite calloc_granted by assumption.
      unfold new_object, next_request. cbn [objs alloc_oracle stdout].
      cbv beta iota.
      destruct (Z.to_nat (to_size_t L)) as [|k] eqn:K.
      * simpl replicate. rewrite strcat_empty_buffer. reflexivity.
      * change (replicate (S k) NUL) with ([] ++ NUL :: replicate k NUL).
        destruct (le_lt_dec (length cs0) k) as [Hle|Hgt].
        -- rewrite (strcat_last (objs w) _ _ [] _ b0 o0 bs0 cs0 r0);
             try assumption;
             [| apply not_elem_of_nil | rewrite length_replicate; lia].
           cbv beta iota. rewrite app_nil_l.
           rewrite (strcat_no_room (objs w) _ _ cs0 _ b1 o1 bs1 cs1 r1);
             try assumption; [reflexivity|].
           rewrite length_drop, length_replicate. lia.
        -- rewrite (strcat_no_room (objs w) _ _ [] _ b0 o0 bs0 cs0 r0);
             try assumption;
             [reflexivity | apply not_elem_of_nil
             | rewrite length_replicate; lia].
    + rewrite calloc_refused by assumption. reflexivity.
Qed.

Lemma FStar_String_strcat_not_string_l w s0 s1 :
  load_cstr w s0 = None -> FStar_String_strcat s0 s1 w = Undef.
Proof.
  intros H. unfold FStar_String_strcat, bind, strlen. rewrite H. reflexivity.
Qed.

Lemma FStar_String_strcat_not_string_r w s0 s1 :
  load_cstr w s1 = None -> FStar_String_strcat s0 s1 w = Undef.
Proof.
  intros H. unfold FStar_String_strcat, bind, strlen.
  destruct (load_cstr w s0); [rewrite H|]; reflexivity.
Qed.

(** Every return of [FStar_String_strcat] is the one of
    [FStar_String_strcat_outcome]. *)
Lemma FStar_String_strcat_inv w s0 s1 p w' :
  FStar_String_strcat s0 s1 w = Ret p w' ->
  exists cs0 cs1,
    string_at w s0 cs0 /\ string_at w s1 cs1 /\
    allocator_grants w (Z.of_nat (length cs0) + Z.of_nat (length cs1) + 1)
      = true /\
    p = Ptr (length (objs w)) 0 /\
    w' = new_object ((cs0 ++ cs1) ++ [NUL]) (next_request w).
Proof.
  intros Hret.
  destruct (load_cstr w s0) as [cs0|] eqn:L0;
    [|rewrite FStar_String_strcat_not_string_l in Hret by exact L0;
      discriminate].
  destruct (load_cstr w s1) as [cs1|] eqn:L1;
    [|rewrite FStar_String_strcat_not_string_r in Hret by exact L1;
      discriminate].
  apply load_cstr_string_at in L0, L1.
  rewrite (FStar_String_strcat_outcome _ _ _ _ _ L0 L1) in Hret.
  destruct (allocator_grants w _) eqn:G; [|discriminate].
  injection Hret as <- <-. exists cs0, cs1. auto.
Qed.

Lemma string_at_no_nul w s cs : string_at w s cs -> NUL ∉ cs.
Proof.
  destruct s as [|b ofs]; simpl; [tauto|]. intros (? & ? & _ & _ & Hn).
  exact Hn.
Qed.

Lemma string_at_new w cs :
  NUL ∉ cs ->
  string_at (new_object (cs ++ [NUL]) (next_request w))
            (Ptr (length (objs w)) 0) cs.
Proof.
  intros Hn. exists (cs ++ [NUL]), []. simpl. split; [|split].
  - apply list_lookup_middle. reflexivity.
  - reflexivity.
  - exact Hn.
Qed.

Lemma print_string_at w s cs :
  string_at w s cs ->
  FStar_HyperStack_IO_print_string s w = Ret tt (putchars cs w).
Proof.
  intros Hs. unfold FStar_HyperStack_IO_print_string, bind, printf.
  change (list_byte_of_string "%s") with ["%"%byte; "s"%byte].
  rewrite (printf_from_string _ _ _ _ _ cs)
    by (apply load_cstr_string_at, Hs).
  reflexivity.
Qed.

(** X1: [FStar_String_strcat] returns exactly when both arguments designate
    terminated sequences of characters and the allocator grants the
    [length s0 + length s1 + 1] bytes of the result; in every other case
    (a null or dangling pointer, no terminator, no memory, a result too
    large) its behaviour is undefined. *)
Theorem FStar_String_strcat_returns_iff w s0 s1 :
  (exists p w', FStar_String_strcat s0 s1 w = Ret p w') <->
  (exists cs0 cs1,
     string_at w s0 cs0 /\ string_at w s1 cs1 /\
     allocator_grants w (Z.of_nat (length cs0) + Z.of_nat (length cs1) + 1)
       = true).
Proof.
  split.
  - intros (p & w' & Hret).
    destruct (FStar_String_strcat_inv _ _ _ _ _ Hret)
      as (cs0 & cs1 & H0 & H1 & G & _).
    exists cs0, cs1. auto.
  - intros (cs0 & cs1 & H0 & H1 & G).
    rewrite (FStar_String_strcat_outcome _ _ _ _ _ H0 H1), G. eauto.
Qed.

(** X2: whatever its arguments, when [FStar_String_strcat] returns, the
    pointer is to the start of the object just added to the memory, this
    object holds all the characters of [s0], all those of [s1] and one
    terminator, and it is no larger than [PTRDIFF_MAX]: a shortened or
    unterminated result is never returned. *)
Theorem FStar_String_strcat_complete w s0 s1 p w' :
  FStar_String_strcat s0 s1 w = Ret p w' ->
  exists cs0 cs1,
    string_at w s0 cs0 /\ string_at w s1 cs1 /\
    p = Ptr (length (objs w)) 0 /\
    objs w' = objs w ++ [cs0 ++ cs1 ++ [NUL]] /\
    string_at w' p (cs0 ++ cs1) /\
    Z.of_nat (length (cs0 ++ cs1 ++ [NUL])) <= PTRDIFF_MAX.
Proof.
  intros Hret.
  destruct (FStar_String_strcat_inv _ _ _ _ _ Hret)
    as (cs0 & cs1 & H0 & H1 & G & -> & ->).
  exists cs0, cs1. split; [exact H0|]. split; [exact H1|].
  split; [reflexivity|].
  split; [simpl; rewrite <- app_assoc; reflexivity|]. split.
  - apply string_at_new, not_elem_of_app.
    split; eapply string_at_no_nul; eassumption.
  - apply allocator_grants_bound in G.
    rewrite !length_app. simpl. lia.
Qed.

(** X3: whatever its arguments, when [FStar_String_strcat] returns it has
    written nothing to standard output, used one answer of the allocator,
    added one object to the memory and changed no other: every object is
    as it was, so every string, its arguments among them, still has its
    characters. *)
Theorem FStar_String_strcat_frame w s0 s1 p w' :
  FStar_String_strcat s0 s1 w = Ret p w' ->
  stdout w' = stdout w /\
  alloc_oracle w' = tl (alloc_oracle w) /\
  length (objs w') = S (length (objs w)) /\
  (forall b bs, objs w !! b = Some bs -> objs w' !! b = Some bs) /\
  (forall s cs, string_at w s cs -> string_at w' s cs) /\
  (forall s cs, terminated_string w s cs -> terminated_string w' s cs).
Proof.
  intros Hret.
  destruct (FStar_String_strcat_inv _ _ _ _ _ Hret)
    as (cs0 & cs1 & _ & _ & _ & -> & ->).
  split; [reflexivity|]. split; [reflexivity|].
  split; [simpl; rewrite length_app; simpl; lia|].
  split; [intros b bs Hb; simpl; apply lookup_app_l_Some, Hb|].
  split; intros s cs; [apply string_at_frame | apply terminated_string_frame].
Qed.

(** X4: when the characters of both arguments and the terminator are more
    than [SIZE_MAX] bytes, the size computed for [calloc] wraps around and
    the behaviour of [FStar_String_strcat] is undefined: it does not
    return a string. *)
Theorem FStar_String_strcat_overflow w s0 s1 cs0 cs1 :
  string_at w s0 cs0 ->
  string_at w s1 cs1 ->
  let size := Z.of_nat (length cs0) + Z.of_nat (length cs1) + 1 in
  SIZE_MAX < size ->
  (0 <= size_bits -> to_size_t size < size) /\
  FStar_String_strcat s0 s1 w = Undef.
Proof.
  intros H0 H1 size Hbig. split.
  - intros Hbits. unfold to_size_t, SIZE_MAX in *.
    pose proof (Z.pow_pos_nonneg 2 size_bits ltac:(lia) Hbits) as Hpos.
    pose proof (Z.mod_pos_bound size (2 ^ size_bits) Hpos). lia.
  - rewrite (FStar_String_strcat_outcome _ _ _ _ _ H0 H1). fold size.
    destruct (allocator_grants w size) eqn:G; [|reflexivity].
    apply allocator_grants_bound in G.
    assert (0 <= PTRDIFF_MAX) as Hpm by lia.
    pose proof (PTRDIFF_MAX_le_SIZE_MAX Hpm). lia.
Qed.

(** X5: [FStar_String_strlen] returns exactly when its argument designates
    a terminated sequence of characters; the state is then as it was and
    the result is the number of characters before the first terminator, as
    a [size_t]. On a null pointer, a pointer to no object or past its end,
    or bytes with no terminator, its behaviour is undefined. *)
Theorem FStar_String_strlen_returns_iff w s n w' :
  FStar_String_strlen s w = Ret n w' <->
  w' = w /\
  exists cs, string_at w s cs /\ n = to_size_t (Z.of_nat (length cs)).
Proof.
  unfold FStar_String_strlen, bind, strlen, ret, Prims_nat_of_size_t. split.
  - destruct (load_cstr w s) as [cs|] eqn:L; [|discriminate].
    intros [= <- <-]. split; [reflexivity|].
    exists cs. split; [apply load_cstr_string_at, L | reflexivity].
  - intros (-> & cs & Hs & ->).
    apply load_cstr_string_at in Hs. rewrite Hs. reflexivity.
Qed.

(** X6: [FStar_HyperStack_IO_print_string] returns exactly when its
    argument designates a terminated sequence of characters; it has then
    appended these characters, up to the first terminator and without it,
    to standard output, and changed nothing else. Otherwise its behaviour
    is undefined and nothing is reported. *)
Theorem print_string_returns_iff w s u w' :
  FStar_HyperStack_IO_print_string s w = Ret u w' <->
  exists cs, string_at w s cs /\ w' = putchars cs w.
Proof.
  split.
  - destruct (load_cstr w s) as [cs|] eqn:L.
    + apply load_cstr_string_at in L.
      rewrite (print_string_at _ _ _ L). intros [= _ <-]. eauto.
    + unfold FStar_HyperStack_IO_print_string, bind, printf.
      change (list_byte_of_string "%s") with ["%"%byte; "s"%byte].
      simpl. rewrite L. discriminate.
  - intros (cs & Hs & ->). rewrite (print_string_at _ _ _ Hs).
    destruct u. reflexivity.
Qed.

(** X7: printing the concatenation of two strings writes what printing the
    first and then the second writes: the characters of the first followed
    by those of the second. *)
Theorem print_string_strcat w s0 s1 cs0 cs1 :
  string_at w s0 cs0 ->
  string_at w s1 cs1 ->
  allocator_grants w (Z.of_nat (length cs0) + Z.of_nat (length cs1) + 1)
    = true ->
  exists w1 w2,
    (let* p := FStar_String_strcat s0 s1 in
     FStar_HyperStack_IO_print_string p) w = Ret tt w1 /\
    (let* _ := FStar_HyperStack_IO_print_string s0 in
     FStar_HyperStack_IO_print_string s1) w = Ret tt w2 /\
    stdout w1 = stdout w ++ cs0 ++ cs1 /\
    stdout w2 = stdout w1.
Proof.
  intros H0 H1 G.
  pose proof (FStar_String_strcat_outcome _ _ _ _ _ H0 H1) as Hcat.
  rewrite G in Hcat.
  assert (string_at (new_object ((cs0 ++ cs1) ++ [NUL]) (next_request w))
            (Ptr (length (objs w)) 0) (cs0 ++ cs1)) as Hp.
  { apply string_at_new, not_elem_of_app.
    split; eapply string_at_no_nul; eassumption. }
  eexists _, _. unfold bind. rewrite Hcat.
  rewrite (print_string_at _ _ _ Hp), (print_string_at _ _ _ H0).
  rewrite (print_string_at (putchars cs0 w) s1 cs1).
  - split; [reflexivity|]. split; [reflexivity|]. simpl.
    rewrite <- app_assoc. auto.
  - destruct s1 as [|b1 o1]; [contradiction|]. exact H1.
Qed.

(** X8: two calls of [FStar_String_strcat], one after the other, return
    different pointers, and the string returned by the first is not
    touched by the second. *)
Theorem FStar_String_strcat_twice w s0 s1 t0 t1 p w1 q w2 :
  FStar_String_strcat s0 s1 w = Ret p w1 ->
  FStar_String_strcat t0 t1 w1 = Ret q w2 ->
  p <> q /\
  exists cs, string_at w1 p cs /\ string_at w2 p cs.
Proof.
  intros Hp Hq.
  destruct (FStar_String_strcat_inv _ _ _ _ _ Hp)
    as (cs0 & cs1 & H0 & H1 & _ & Ep & Ew1).
  destruct (FStar_String_strcat_inv _ _ _ _ _ Hq)
    as (ct0 & ct1 & _ & _ & _ & Eq & Ew2).
  assert (string_at w1 p (cs0 ++ cs1)) as Sp.
  { rewrite Ep, Ew1. apply string_at_new, not_elem_of_app.
    split; eapply string_at_no_nul; eassumption. }
  split.
  - rewrite Ep, Eq, Ew1. simpl. rewrite length_app. simpl.
    intros [= E]. lia.
  - exists (cs0 ++ cs1). split; [exact Sp|].
    rewrite Ew2. apply string_at_frame, Sp.
Qed.

End Platform.

(** ** The shim at work, on a platform with a 64-bit [size_t] *)

Example strlen_hello :
  FStar_String_strlen 64 str_hello sample_world = Ret 5 sample_world.
Proof. reflexivity. Qed.

Example strcat_foo_bar :
  FStar_String_strcat 64 str_foo str_bar sample_world =
    Ret (Ptr 5 0)
        {| objs := sample_objs ++ [literal "foobar"];
           alloc_oracle := [true]; stdout := [] |}.
Proof. reflexivity. Qed.

Example strcat_empty_empty :
  FStar_String_strcat 64 str_empty str_empty sample_world =
    Ret (Ptr 5 0)
        {| objs := sample_objs ++ [literal ""];
           alloc_oracle := [true]; stdout := [] |}.
Proof. reflexivity. Qed.

Example print_abc :
  FStar_HyperStack_IO_print_string str_abc sample_world =
    Ret tt {| objs := sample_objs; alloc_oracle := [true; true];
              stdout := list_byte_of_string "abc" |}.
Proof. reflexivity. Qed.

Example strcat_exhausted :
  FStar_String_strcat 64 str_foo str_bar exhausted_world = Undef.
Proof. reflexivity. Qed.

(** With memory for one request, a first concatenation returns and a
    second one, on its result, has undefined behaviour. *)
Example strcat_tight :
  FStar_String_strcat 64 str_foo str_bar tight_world =
    Ret (Ptr 5 0)
        {| objs := sample_objs ++ [literal "foobar"];
           alloc_oracle := []; stdout := [] |} /\
  FStar_String_strcat 64 (Ptr 5 0) str_abc
    {| objs := sample_objs ++ [literal "foobar"];
       alloc_oracle := []; stdout := [] |} = Undef.
Proof. split; reflexivity. Qed.

(** *** Instances of the theorems *)

Ltac sample_string := apply check_string_sound; reflexivity.

Lemma FStar_String_strcat_concatenates_witness :
  terminated_string 64 sample_world str_foo (list_byte_of_string "foo") /\
  terminated_string 64 sample_world str_bar (list_byte_of_string "bar") /\
  allocator_grants 64 sample_world (3 + 3 + 1) = true /\
  exists l0 l1 b w' buf,
    FStar_String_strlen 64 str_foo sample_world = Ret l0 sample_world /\
    FStar_String_strlen 64 str_bar sample_world = Ret l1 sample_world /\
    FStar_String_strcat 64 str_foo str_bar sample_world = Ret (Ptr b 0) w' /\
    objs sample_world !! b = None /\
    objs w' !! b = Some buf /\
    buf = list_byte_of_string "foo" ++ list_byte_of_string "bar" ++ [NUL] /\
    Z.of_nat (length buf) = l0 + l1 + 1 /\
    terminated_string 64 w' (Ptr b 0)
      (list_byte_of_string "foo" ++ list_byte_of_string "bar").
Proof.
  split; [sample_string|]. split; [sample_string|]. split; [reflexivity|].
  apply (FStar_String_strcat_concatenates 64 sample_world str_foo str_bar
           (list_byte_of_string "foo") (list_byte_of_string "bar"));
    [sample_string | sample_string | reflexivity].
Defined.

(** With no memory left the concatenation of two valid strings returns
    nothing. *)
Lemma FStar_String_strcat_concatenates_counterexample :
  terminated_string 64 exhausted_world str_foo (list_byte_of_string "foo") /\
  terminated_string 64 exhausted_world str_bar (list_byte_of_string "bar") /\
  ~ exists p w',
      FStar_String_strcat 64 str_foo str_bar exhausted_world = Ret p w' /\
      terminated_string 64 w' p
        (list_byte_of_string "foo" ++ list_byte_of_string "bar").
Proof.
  split; [sample_string|]. split; [sample_string|].
  intros (p & w' & H & _). discriminate H.
Qed.

Lemma FStar_String_strlen_counts_witness :
  terminated_string 64 sample_world str_hello (list_byte_of_string "hello") /\
  FStar_String_strlen 64 str_hello sample_world = Ret 5 sample_world /\
  terminated_string 64 sample_world str_empty [] /\
  FStar_String_strlen 64 str_empty sample_world = Ret 0 sample_world.
Proof.
  split; [sample_string|]. split.
  - apply (FStar_String_strlen_counts 64 sample_world str_hello
             (list_byte_of_string "hello")). sample_string.
  - split; [sample_string|].
    apply (FStar_String_strlen_counts 64 sample_world str_empty []);
      [sample_string | reflexivity].
Defined.

Lemma FStar_String_strlen_strcat_witness :
  terminated_string 64 sample_world str_foo (list_byte_of_string "foo") /\
  terminated_string 64 sample_world str_hello (list_byte_of_string "hello") /\
  allocator_grants 64 sample_world (3 + 5 + 1) = true /\
  exists la lb n w',
    FStar_String_strlen 64 str_foo sample_world = Ret la sample_world /\
    FStar_String_strlen 64 str_hello sample_world = Ret lb sample_world /\
    (let* ab := FStar_String_strcat 64 str_foo str_hello in
     FStar_String_strlen 64 ab) sample_world = Ret n w' /\
    n = la + lb.
Proof.
  split; [sample_string|]. split; [sample_string|]. split; [reflexivity|].
  apply (FStar_String_strlen_strcat 64 sample_world str_foo str_hello
           (list_byte_of_string "foo") (list_byte_of_string "hello"));
    [sample_string | sample_string | reflexivity].
Defined.

(** With no memory left the length of a concatenation is not computed. *)
Lemma FStar_String_strlen_strcat_counterexample :
  terminated_string 64 exhausted_world str_foo (list_byte_of_string "foo") /\
  terminated_string 64 exhausted_world str_hello
    (list_byte_of_string "hello") /\
  FStar_String_strlen 64 str_foo exhausted_world = Ret 3 exhausted_world /\
  FStar_String_strlen 64 str_hello exhausted_world = Ret 5 exhausted_world /\
  ~ exists w',
      (let* ab := FStar_String_strcat 64 str_foo str_hello in
       FStar_String_strlen 64 ab) exhausted_world = Ret (3 + 5) w'.
Proof.
  split; [sample_string|]. split; [sample_string|].
  split; [reflexivity|]. split; [reflexivity|].
  intros (w' & H). discriminate H.
Qed.

Lemma FStar_String_strcat_empty_witness :
  terminated_string 64 sample_world str_abc (list_byte_of_string "abc") /\
  terminated_string 64 sample_world str_empty [] /\
  allocator_grants 64 sample_world (3 + 1) = true /\
  (exists p w',
     FStar_String_strcat 64 str_abc str_empty sample_world = Ret p w' /\
     terminated_string 64 w' p (list_byte_of_string "abc") /\
     terminated_string 64 w' str_abc (list_byte_of_string "abc")) /\
  (exists p w',
     FStar_String_strcat 64 str_empty str_abc sample_world = Ret p w' /\
     terminated_string 64 w' p (list_byte_of_string "abc") /\
     terminated_string 64 w' str_abc (list_byte_of_string "abc")).
Proof.
  split; [sample_string|]. split; [sample_string|]. split; [reflexivity|].
  apply (FStar_String_strcat_empty 64 sample_world str_abc str_empty
           (list_byte_of_string "abc"));
    [sample_string | sample_string | reflexivity].
Defined.

(** With no memory left neither concatenation with the empty string
    returns. *)
Lemma FStar_String_strcat_empty_counterexample :
  terminated_string 64 exhausted_world str_abc (list_byte_of_string "abc") /\
  terminated_string 64 exhausted_world str_empty [] /\
  ~ (exists p w',
       FStar_String_strcat 64 str_abc str_empty exhausted_world = Ret p w' /\
       terminated_string 64 w' p (list_byte_of_string "abc")) /\
  ~ (exists p w',
       FStar_String_strcat 64 str_empty str_abc exhausted_world = Ret p w' /\
       terminated_string 64 w' p (list_byte_of_string "abc")).
Proof.
  split; [sample_string|]. split; [sample_string|].
  split; intros (p & w' & H & _); discriminate H.
Qed.

Lemma FStar_String_strcat_assoc_witness :
  terminated_string 64 sample_world str_foo (list_byte_of_string "foo") /\
  terminated_string 64 sample_world str_bar (list_byte_of_string "bar") /\
  terminated_string 64 sample_world str_abc (list_byte_of_string "abc") /\
  allocator_grants_all 64 sample_world [3 + 3 + 1; 3 + 3 + 3 + 1] = true /\
  allocator_grants_all 64 sample_world [3 + 3 + 1; 3 + 3 + 3 + 1] = true /\
  exists p wl q wr cs,
    (let* ab := FStar_String_strcat 64 str_foo str_bar in
     FStar_String_strcat 64 ab str_abc) sample_world = Ret p wl /\
    (let* bc := FStar_String_strcat 64 str_bar str_abc in
     FStar_String_strcat 64 str_foo bc) sample_world = Ret q wr /\
    terminated_string 64 wl p cs /\
    terminated_string 64 wr q cs /\
    cs = list_byte_of_string "foo" ++ list_byte_of_string "bar"
         ++ list_byte_of_string "abc".
Proof.
  split; [sample_string|]. split; [sample_string|]. split; [sample_string|].
  split; [reflexivity|]. split; [reflexivity|].
  apply (FStar_String_strcat_assoc 64 sample_world str_foo str_bar str_abc
           (list_byte_of_string "foo") (list_byte_of_string "bar")
           (list_byte_of_string "abc"));
    [sample_string | sample_string | sample_string
    | reflexivity | reflexivity].
Defined.

(** With memory for one request only, the second concatenation of either
    side returns nothing. *)
Lemma FStar_String_strcat_assoc_counterexample :
  terminated_string 64 tight_world str_foo (list_byte_of_string "foo") /\
  terminated_string 64 tight_world str_bar (list_byte_of_string "bar") /\
  terminated_string 64 tight_world str_abc (list_byte_of_string "abc") /\
  ~ (exists p wl,
       (let* ab := FStar_String_strcat 64 str_foo str_bar in
        FStar_String_strcat 64 ab str_abc) tight_world = Ret p wl) /\
  ~ (exists q wr,
       (let* bc := FStar_String_strcat 64 str_bar str_abc in
        FStar_String_strcat 64 str_foo bc) tight_world = Ret q wr).
Proof.
  split; [sample_string|]. split; [sample_string|]. split; [sample_string|].
  split; intros (p & w' & H); discriminate H.
Qed.

Lemma print_string_writes_witness :
  terminated_string 64 sample_world str_abc (list_byte_of_string "abc") /\
  exists w',
    FStar_HyperStack_IO_print_string str_abc sample_world = Ret tt w' /\
    stdout w' = stdout sample_world ++ list_byte_of_string "abc" /\
    objs w' = objs sample_world /\
    alloc_oracle w' = alloc_oracle sample_world.
Proof.
  split; [sample_string|].
  apply (print_string_writes 64 sample_world str_abc
           (list_byte_of_string "abc")). sample_string.
Defined.

Lemma FStar_String_strcat_no_error_witness :
  hd false (alloc_oracle exhausted_world) = false /\
  strlen 64 str_foo exhausted_world = Ret 3 exhausted_world /\
  strlen 64 str_bar exhausted_world = Ret 3 exhausted_world /\
  calloc 64 (to_size_t 64 (to_size_t 64 (3 + 3) + 1)) 1 exhausted_world
    = Ret NULL exhausted_world /\
  FStar_String_strcat 64 str_foo str_bar exhausted_world = Undef /\
  FStar_String_strcat 64 str_foo str_bar exhausted_world = Undef /\
  forall p w',
    FStar_String_strcat 64 str_foo str_bar sample_world = Ret p w' ->
    p <> NULL.
Proof.
  split; [reflexivity|]. split; [reflexivity|]. split; [reflexivity|].
  split; [reflexivity|].
  pose proof (FStar_String_strcat_no_error 64 exhausted_world
                str_foo str_bar) as (_ & Hoom & Hnull).
  split; [apply Hoom; reflexivity|].
  split; [apply (Hnull 3 3 exhausted_world); reflexivity|].
  apply (FStar_String_strcat_no_error 64 sample_world str_foo str_bar).
Defined.

Lemma FStar_String_strlen_nonneg_witness :
  terminated_string 64 sample_world str_hello (list_byte_of_string "hello") /\
  exists n, FStar_String_strlen 64 str_hello sample_world = Ret n sample_world
            /\ 0 <= n.
Proof.
  split; [sample_string|].
  apply (FStar_String_strlen_nonneg 64 sample_world str_hello
           (list_byte_of_string "hello")). sample_string.
Defined.

Lemma FStar_String_strcat_terminated_witness :
  terminated_string 64 sample_world str_foo (list_byte_of_string "foo") /\
  terminated_string 64 sample_world str_bar (list_byte_of_string "bar") /\
  FStar_String_strcat 64 str_foo str_bar sample_world =
    Ret (Ptr 5 0) (new_object (literal "foobar") (next_request sample_world)) /\
  terminated_string 64
    (new_object (literal "foobar") (next_request sample_world)) (Ptr 5 0)
    (list_byte_of_string "foo" ++ list_byte_of_string "bar").
Proof.
  split; [sample_string|]. split; [sample_string|]. split; [reflexivity|].
  apply (FStar_String_strcat_terminated 64 sample_world str_foo str_bar
           (list_byte_of_string "foo") (list_byte_of_string "bar")
           (Ptr 5 0)
           (new_object (literal "foobar") (next_request sample_world)));
    [sample_string | sample_string | reflexivity].
Defined.

(** *** Instances of the further theorems *)

Ltac sample_string_at := apply load_cstr_string_at; reflexivity.

Lemma FStar_String_strcat_returns_iff_witness :
  string_at sample_world str_foo (list_byte_of_string "foo") /\
  string_at sample_world str_bar (list_byte_of_string "bar") /\
  allocator_grants 64 sample_world (3 + 3 + 1) = true /\
  (exists p w', FStar_String_strcat 64 str_foo str_bar sample_world = Ret p w')
  /\ ~ (exists p w', FStar_String_strcat 64 NULL str_bar sample_world = Ret p w').
Proof.
  split; [sample_string_at|]. split; [sample_string_at|].
  split; [reflexivity|]. split.
  - apply (proj2 (FStar_String_strcat_returns_iff 64 sample_world
                    str_foo str_bar)).
    exists (list_byte_of_string "foo"), (list_byte_of_string "bar").
    split; [sample_string_at|]. split; [sample_string_at | reflexivity].
  - intros H.
    apply (proj1 (FStar_String_strcat_returns_iff 64 sample_world
                    NULL str_bar)) in H.
    destruct H as (cs0 & cs1 & H & _). exact H.
Defined.

Lemma FStar_String_strcat_complete_witness :
  FStar_String_strcat 64 str_foo str_bar sample_world =
    Ret (Ptr 5 0) (new_object (literal "foobar") (next_request sample_world))
  /\
  exists cs0 cs1,
    string_at sample_world str_foo cs0 /\
    string_at sample_world str_bar cs1 /\
    Ptr 5 0 = Ptr (length (objs sample_world)) 0 /\
    objs (new_object (literal "foobar") (next_request sample_world))
      = objs sample_world ++ [cs0 ++ cs1 ++ [NUL]] /\
    string_at (new_object (literal "foobar") (next_request sample_world))
      (Ptr 5 0) (cs0 ++ cs1) /\
    Z.of_nat (length (cs0 ++ cs1 ++ [NUL])) <= PTRDIFF_MAX 64.
Proof.
  split; [reflexivity|].
  apply (FStar_String_strcat_complete 64 sample_world str_foo str_bar).
  reflexivity.
Defined.

Lemma FStar_String_strcat_frame_witness :
  FStar_String_strcat 64 str_foo str_bar sample_world =
    Ret (Ptr 5 0) (new_object (literal "foobar") (next_request sample_world))
  /\ stdout (new_object (literal "foobar") (next_request sample_world))
       = stdout sample_world
  /\ string_at (new_object (literal "foobar") (next_request sample_world))
       str_foo (list_byte_of_string "foo").
Proof.
  split; [reflexivity|].
  pose proof (FStar_String_strcat_frame 64 sample_world str_foo str_bar
                (Ptr 5 0)
                (new_object (literal "foobar") (next_request sample_world))
                eq_refl) as (Hout & _ & _ & _ & Hstr & _).
  split; [exact Hout|]. apply Hstr. sample_string_at.
Defined.

(** On a toy platform with a 3-bit [size_t], "foo" and "hello" are too
    much: the 9 bytes asked for are 1. *)
Lemma FStar_String_strcat_overflow_witness :
  string_at sample_world str_foo (list_byte_of_string "foo") /\
  string_at sample_world str_hello (list_byte_of_string "hello") /\
  SIZE_MAX 3 < 3 + 5 + 1 /\
  (0 <= 3 -> to_size_t 3 (3 + 5 + 1) < 3 + 5 + 1) /\
  FStar_String_strcat 3 str_foo str_hello sample_world = Undef.
Proof.
  split; [sample_string_at|]. split; [sample_string_at|].
  split; [reflexivity|].
  apply (FStar_String_strcat_overflow 3 sample_world str_foo str_hello
           (list_byte_of_string "foo") (list_byte_of_string "hello"));
    [sample_string_at | sample_string_at | reflexivity].
Defined.

Lemma FStar_String_strlen_returns_iff_witness :
  FStar_String_strlen 64 str_hello sample_world = Ret 5 sample_world /\
  (exists cs, string_at sample_world str_hello cs /\
              5 = to_size_t 64 (Z.of_nat (length cs))) /\
  forall n w', FStar_String_strlen 64 NULL sample_world <> Ret n w'.
Proof.
  split; [reflexivity|]. split.
  - apply (proj1 (FStar_String_strlen_returns_iff 64 sample_world str_hello
                    5 sample_world)). reflexivity.
  - intros n w' H.
    apply (proj1 (FStar_String_strlen_returns_iff 64 sample_world NULL
                    n w')) in H.
    destruct H as (_ & cs & H & _). exact H.
Defined.

Lemma print_string_returns_iff_witness :
  FStar_HyperStack_IO_print_string str_abc sample_world =
    Ret tt (putchars (list_byte_of_string "abc") sample_world) /\
  exists cs, string_at sample_world str_abc cs /\
             putchars (list_byte_of_string "abc") sample_world
               = putchars cs sample_world.
Proof.
  split; [reflexivity|].
  apply (proj1 (print_string_returns_iff sample_world str_abc tt
                  (putchars (list_byte_of_string "abc") sample_world))).
  reflexivity.
Defined.

Lemma print_string_strcat_witness :
  string_at sample_world str_foo (list_byte_of_string "foo") /\
  string_at sample_world str_bar (list_byte_of_string "bar") /\
  allocator_grants 64 sample_world (3 + 3 + 1) = true /\
  exists w1 w2,
    (let* p := FStar_String_strcat 64 str_foo str_bar in
     FStar_HyperStack_IO_print_string p) sample_world = Ret tt w1 /\
    (let* _ := FStar_HyperStack_IO_print_string str_foo in
     FStar_HyperStack_IO_print_string str_bar) sample_world = Ret tt w2 /\
    stdout w1 = stdout sample_world
                ++ list_byte_of_string "foo" ++ list_byte_of_string "bar" /\
    stdout w2 = stdout w1.
Proof.
  split; [sample_string_at|]. split; [sample_string_at|].
  split; [reflexivity|].
  apply (print_string_strcat 64 sample_world str_foo str_bar
           (list_byte_of_string "foo") (list_byte_of_string "bar"));
    [sample_string_at | sample_string_at | reflexivity].
Defined.

Lemma FStar_String_strcat_twice_witness :
  FStar_String_strcat 64 str_foo str_bar sample_world =
    Ret (Ptr 5 0) (new_object (literal "foobar") (next_request sample_world))
  /\
  FStar_String_strcat 64 (Ptr 5 0) str_abc
    (new_object (literal "foobar") (next_request sample_world)) =
    Ret (Ptr 6 0)
        (new_object (literal "foobarabc")
           (next_request
              (new_object (literal "foobar") (next_request sample_world))))
  /\
  Ptr 5 0 <> Ptr 6 0 /\
  exists cs,
    string_at (new_object (literal "foobar") (next_request sample_world))
      (Ptr 5 0) cs /\
    string_at
      (new_object (literal "foobarabc")
         (next_request
            (new_object (literal "foobar") (next_request sample_world))))
      (Ptr 5 0) cs.
Proof.
  split; [reflexivity|]. split; [reflexivity|].
  apply (FStar_String_strcat_twice 64 sample_world str_foo str_bar
           (Ptr 5 0) str_abc (Ptr 5 0)
           (new_object (literal "foobar") (next_request sample_world))
           (Ptr 6 0)
           (new_object (literal "foobarabc")
              (next_request
                 (new_object (literal "foobar")
                    (next_request sample_world)))));
    reflexivity.
Defined.
